(** * Key-collision clustering of the openclean street-name notebook

    The notebook [examples/notebooks/Parking Violations - Street Name
    Clustering (Performance comparison).ipynb] extracts the distinct street
    names of a column, standardizes them ([StandardizeUSStreetName.apply]
    with 1..4 threads) and clusters them with
    [KeyCollision(func=Fingerprint(), threads=threads).clusters(...)]; it
    also runs the same standardization and clustering inline on the
    stream ([ds.select('Street').update(...).cluster(...)]).

    The clusterer itself is not part of the sources shipped here, so its
    behaviour is modelled after the design description of
    [cluster(values, keyFn, concurrency) -> Mapping<Key, Set<Value>>]:
    values are split into worker chunks, every worker computes keys and a
    local grouping of its chunk, and the local groupings are merged
    sequentially into the result.  A key function that raises is modelled
    as a function into [E + K] ([inl e] = raised [e]). *)

From stdpp Require Import base gmap sets list.

Section Clusterer.
Context {V K E : Type}.
Context `{Countable V} `{Countable K}.

(** The error raised to the caller when the key function fails. *)
Inductive ClusterError : Type :=
| KeyComputationError (value : V) (cause : E).

(** Outcome of a computation that may raise. *)
Abbreviation result A := (ClusterError + A)%type.

(** A clustering result: a mapping from key to the set of its values. *)
Abbreviation clustering := (gmap K (gset V)).

Implicit Types (keyFn : V → E + K) (m acc : clustering) (vs : list V).

(** Modelled from the spec: the cluster of [key] gains [value]
    ([groups.setdefault(key, set()).add(value)]). *)
Definition add_member (k : K) (v : V) (m : clustering) : clustering :=
  <[k := {[v]} ∪ default ∅ (m !! k)]> m.

(** Modelled from the spec: one worker computes the keys of its chunk
    and groups the chunk locally; the first failing key aborts it. *)
Fixpoint group_chunk keyFn (vs : list V) (acc : clustering) : result clustering :=
  match vs with
  | [] => inr acc
  | v :: vs' =>
      match keyFn v with
      | inl e => inl (KeyComputationError v e)
      | inr k => group_chunk keyFn vs' (add_member k v acc)
      end
  end.

(** Modelled from the spec: merging two local groupings key by key. *)
Definition merge_groups (m1 m2 : clustering) : clustering :=
  union_with (λ s1 s2, Some (s1 ∪ s2)) m1 m2.

(** Collecting the worker results in worker order: the first failure
    is reported, otherwise the list of local groupings. *)
Fixpoint collect (rs : list (result clustering)) : result (list clustering) :=
  match rs with
  | [] => inr []
  | inl e :: _ => inl e
  | inr m :: rs' =>
      match collect rs' with
      | inl e => inl e
      | inr ms => inr (m :: ms)
      end
  end.

(** Partition-then-merge over a given split of the values into chunks. *)
Definition run_split keyFn (chunks : list (list V)) : result clustering :=
  match collect (map (λ ch, group_chunk keyFn ch ∅) chunks) with
  | inl e => inl e
  | inr ms => inr (foldl merge_groups ∅ ms)
  end.

(** Modelled from the spec: the values are cut into consecutive chunks
    of [size] values, [values[i:i+size] for i in range(0, n, size)]. *)
Fixpoint chunks_fuel (fuel size : nat) (vs : list V) : list (list V) :=
  match fuel with
  | 0 => []
  | S f =>
      match vs with
      | [] => []
      | _ :: _ => take size vs :: chunks_fuel f size (drop size vs)
      end
  end.

(** Chunk size for [n] values and [c] workers: [ceil(n / c)]. *)
Definition chunk_size (n : nat) (c : positive) : nat :=
  (n + Pos.to_nat c - 1) / Pos.to_nat c.

Definition split_values (vs : list V) (c : positive) : list (list V) :=
  chunks_fuel (length vs) (chunk_size (length vs) c) vs.

(** Modelled from the spec: [cluster(values, keyFn, concurrency)]. *)
Definition cluster keyFn (vs : list V) (concurrency : positive) : result clustering :=
  run_split keyFn (split_values vs concurrency).

(** All members of all clusters, as a list ([[v for c in clusters for v in c]]). *)
Definition flatten (m : clustering) : list V :=
  map_to_list m ≫= (λ kS, elements kS.2).

(** The union of all clusters' members. *)
Definition members (m : clustering) : gset V := list_to_set (flatten m).

(** Every cluster is non-empty and holds only values of its own key. *)
Definition wf_grouping keyFn (m : clustering) : Prop :=
  ∀ k S, m !! k = Some S → S ≠ ∅ ∧ ∀ v, v ∈ S → keyFn v = inr k.


(** Modelled from the spec: a run of [cluster] with real workers.  The
    workers finish in any order and their local groupings are merged in
    the order they complete; a failing worker aborts the call with its
    error and no mapping is returned. *)
Inductive cluster_exec keyFn (vs : list V) (c : positive) : result clustering → Prop :=
| exec_merged ms ms' :
    collect (map (λ ch, group_chunk keyFn ch ∅) (split_values vs c)) = inr ms →
    ms' ≡ₚ ms →
    cluster_exec keyFn vs c (inr (foldl merge_groups ∅ ms'))
| exec_aborted ch e :
    ch ∈ split_values vs c →
    group_chunk keyFn ch ∅ = inl e →
    cluster_exec keyFn vs c (inl e).

(** Python objects reachable by the caller: the [values] list it passes
    and the result dictionary the clusterer allocates. *)
Inductive pyobj : Type :=
| PyList (l : list V)
| PyDict (d : clustering).

Abbreviation heap := (gmap positive pyobj).

(** Modelled from the spec: the worker results are merged one after the
    other into the result dictionary at [lr]; the first failure stops
    the merge. *)
Fixpoint merge_into (lr : positive) (rs : list (result clustering)) (h : heap)
    : heap * option ClusterError :=
  match rs with
  | [] => (h, None)
  | inl e :: _ => (h, Some e)
  | inr m :: rs' =>
      let cur := match h !! lr with Some (PyDict d) => d | _ => ∅ end in
      merge_into lr rs' (<[lr := PyDict (merge_groups cur m)]> h)
  end.

(** Modelled from the spec: [cluster(values, keyFn, concurrency)] called
    on the list stored at [lv]; [None] when [lv] holds no list.  The
    result dictionary is a fresh object. *)
Definition cluster_in_heap keyFn (c : positive) (h : heap) (lv : positive)
    : option (heap * result positive) :=
  match h !! lv with
  | Some (PyList vs) =>
      let lr := fresh (dom h) in
      let rs := map (λ ch, group_chunk keyFn ch ∅) (split_values vs c) in
      match merge_into lr rs (<[lr := PyDict ∅]> h) with
      | (h', None) => Some (h', inr lr)
      | (h', Some e) => Some (h', inl e)
      end
  | _ => None
  end.

(** Modelled from the spec: the standardizer is a pure per-value
    function [std]; [apply(values, threads)] is the parallel-map helper:
    the values are cut into chunks, every worker maps its chunk and the
    results are concatenated in chunk order. *)
Definition apply_std (std : V → V) (vs : list V) (threads : positive) : list V :=
  concat ((λ ch : list V, std <$> ch) <$> split_values vs threads).

(** Modelled from the spec: the distinct values of a column. *)
Definition distinct_values (column : list V) : list V := remove_dups column.

(** Notebook, inline arrangement:
    [ds.select('Street').update('Street', std).cluster(KeyCollision(keyFn))]. *)
Definition stream_cluster keyFn (std : V → V) (column : list V) (c : positive)
    : result clustering :=
  cluster keyFn (std <$> column) c.

(** Notebook, separate arrangement: [streets = ds.distinct_values('Street')],
    [streets_std = f.apply(streets, threads)],
    [KeyCollision(keyFn, threads=c).clusters(streets_std)]. *)
Definition separate_cluster keyFn (std : V → V) (column : list V)
    (threads c : positive) : result clustering :=
  cluster keyFn (apply_std std (distinct_values column) threads) c.

(** ** The cells of the notebook *)


(** [range(1,5)]: the thread counts tried by cells 6 and 7. *)
Definition thread_counts : list positive := [1; 2; 3; 4]%positive.

(** Cell 6: [for threads in range(1,5): streets_std = f.apply(streets,
    threads); count = len(streets_std); print(...)].  Returns the printed
    counts and the [streets_std] left by the last iteration. *)
Definition standardization_cell (std : V → V) (streets : list V)
    : list nat * option (list V) :=
  foldl (λ st threads,
           let streets_std := apply_std std streets threads in
           (st.1 ++ [length streets_std], Some streets_std))
        ([], None) thread_counts.

(** Cell 7: [for threads in range(1,5): f = KeyCollision(func, threads=
    threads); clusters = f.clusters(streets_std); count = len(clusters);
    print(...)].  Returns the printed cluster counts; an exception stops
    the cell. *)
Definition clustering_cell keyFn (streets_std : list V) : result (list nat) :=
  foldl (λ run threads,
           match run with
           | inl e => inl e
           | inr counts =>
               match cluster keyFn streets_std threads with
               | inl e => inl e
               | inr clusters => inr (counts ++ [size clusters])
               end
           end)
        (inr []) thread_counts.

(** Cells 5 to 8 run in order: the printed number of streets (cell 5),
    the standardization counts (cell 6), the cluster counts (cell 7) and
    the cluster count of the inline stream run (cell 8, with the
    clusterer's default concurrency [c]). *)
Definition notebook_run keyFn (std : V → V) (column : list V) (c : positive)
    : result (nat * list nat * list nat * nat) :=
  let streets := distinct_values column in
  let '(std_counts, last_std) := standardization_cell std streets in
  let streets_std := default [] last_std in
  match clustering_cell keyFn streets_std with
  | inl e => inl e
  | inr cluster_counts =>
      match stream_cluster keyFn std column c with
      | inl e => inl e
      | inr clusters => inr (length streets, std_counts, cluster_counts, size clusters)
      end
  end.

(** ** Membership and uniqueness of groupings *)

Lemma elem_of_members m v :
  v ∈ members m ↔ ∃ k S, m !! k = Some S ∧ v ∈ S.
Proof.
  unfold members, flatten. rewrite elem_of_list_to_set, list_elem_of_bind.
  split.
  - intros [[k S] [Hv Hin]]. apply elem_of_map_to_list in Hin.
    apply elem_of_elements in Hv. eauto.
  - intros (k & S & Hk & Hv). exists (k, S). split.
    + by apply elem_of_elements.
    + by apply elem_of_map_to_list.
Qed.

Lemma wf_lookup_members keyFn m k v :
  wf_grouping keyFn m →
  v ∈ default ∅ (m !! k) ↔ v ∈ members m ∧ keyFn v = inr k.
Proof.
  intros Hwf. rewrite elem_of_members. split.
  - destruct (m !! k) as [S|] eqn:Hk; simpl; [|set_solver].
    intros Hv. split; [eauto|]. by apply (Hwf k S).
  - intros [(k' & S & Hk' & Hv) Hkey].
    pose proof (proj2 (Hwf k' S Hk') v Hv) as Hkey'.
    rewrite Hkey in Hkey'. injection Hkey' as ->. by rewrite Hk'.
Qed.

(** Two well-formed groupings with the same members are equal. *)
Lemma wf_grouping_unique keyFn m1 m2 :
  wf_grouping keyFn m1 → wf_grouping keyFn m2 →
  members m1 = members m2 → m1 = m2.
Proof.
  intros Hwf1 Hwf2 Hmem. apply map_eq. intros k.
  assert (Hiff : ∀ v, v ∈ default ∅ (m1 !! k) ↔ v ∈ default ∅ (m2 !! k)).
  { intros v. rewrite (wf_lookup_members keyFn m1), (wf_lookup_members keyFn m2)
      by done. by rewrite Hmem. }
  destruct (m1 !! k) as [S1|] eqn:H1, (m2 !! k) as [S2|] eqn:H2; simpl in Hiff.
  - f_equal. apply set_eq. exact Hiff.
  - destruct (Hwf1 k S1 H1) as [Hne _].
    destruct (set_choose_L S1 Hne) as [v Hv]. apply Hiff in Hv. set_solver.
  - destruct (Hwf2 k S2 H2) as [Hne _].
    destruct (set_choose_L S2 Hne) as [v Hv]. apply Hiff in Hv. set_solver.
  - done.
Qed.

(** ** One worker: [group_chunk] *)

Lemma members_empty : members (∅ : clustering) = ∅.
Proof. apply set_eq. intros v. rewrite elem_of_members. setoid_rewrite lookup_empty. set_solver. Qed.

Lemma wf_grouping_empty keyFn : wf_grouping keyFn ∅.
Proof. intros k S. by rewrite lookup_empty. Qed.

Lemma add_member_spec keyFn m k v :
  wf_grouping keyFn m → keyFn v = inr k →
  wf_grouping keyFn (add_member k v m) ∧
  members (add_member k v m) = {[v]} ∪ members m.
Proof.
  intros Hwf Hk. unfold add_member. split.
  - intros k' S. rewrite lookup_insert.
    case_decide as Heq; [subst k'|by apply Hwf].
    intros [= <-]. split; [set_solver|].
    intros x [->%elem_of_singleton|Hx]%elem_of_union; [done|].
    destruct (m !! k) as [S'|] eqn:HS; simpl in Hx; [|set_solver].
    by apply (Hwf k S').
  - apply set_eq. intros x. rewrite elem_of_union, elem_of_singleton,
      !elem_of_members. setoid_rewrite lookup_insert. split.
    + intros (k' & S & HS & Hx). case_decide as Heq; [subst k'|eauto].
      injection HS as <-. apply elem_of_union in Hx as [Hx|Hx]; [set_solver|].
      right. destruct (m !! k) eqn:Hm; simpl in Hx; [eauto|set_solver].
    + intros [->|(k' & S & HS & Hx)].
      * exists k. rewrite decide_True by done. eexists. split; [done|set_solver].
      * destruct (decide (k = k')) as [<-|Hne].
        -- exists k. rewrite decide_True by done. eexists. split; [done|].
           rewrite HS. set_solver.
        -- exists k'. rewrite decide_False by done. eauto.
Qed.

(** A worker that succeeds returns a well-formed grouping of its chunk
    added to the one it started from. *)
Lemma group_chunk_ok keyFn vs acc m :
  group_chunk keyFn vs acc = inr m → wf_grouping keyFn acc →
  wf_grouping keyFn m ∧ members m = list_to_set vs ∪ members acc.
Proof.
  revert acc. induction vs as [|v vs IH]; intros acc; simpl.
  - intros [= <-] Hwf. split; [done|set_solver].
  - destruct (keyFn v) as [e|k] eqn:Hk; [done|].
    intros Hrun Hwf. destruct (add_member_spec keyFn acc k v Hwf Hk) as [Hwf' Hmem].
    destruct (IH _ Hrun Hwf') as [Hwfm Hm]. split; [done|].
    rewrite Hm, Hmem. set_solver.
Qed.

(** The failure of a worker does not depend on the grouping it started from. *)
Lemma group_chunk_err keyFn vs acc acc' e :
  group_chunk keyFn vs acc = inl e → group_chunk keyFn vs acc' = inl e.
Proof.
  revert acc acc'. induction vs as [|v vs IH]; intros acc acc'; simpl; [done|].
  destruct (keyFn v); [done|]. apply IH.
Qed.

(** A failure names a value of the chunk whose key computation raised. *)
Lemma group_chunk_err_value keyFn vs acc w e :
  group_chunk keyFn vs acc = inl (KeyComputationError w e) →
  w ∈ vs ∧ keyFn w = inl e.
Proof.
  revert acc. induction vs as [|v vs IH]; intros acc; simpl; [done|].
  destruct (keyFn v) as [e'|k] eqn:Hk.
  - intros [= -> ->]. split; [set_solver|done].
  - intros Hrun. destruct (IH _ Hrun). split; [set_solver|done].
Qed.

(** A worker whose key computations all succeed succeeds. *)
Lemma group_chunk_total keyFn vs acc :
  (∀ v, v ∈ vs → ∃ k, keyFn v = inr k) → ∃ m, group_chunk keyFn vs acc = inr m.
Proof.
  revert acc. induction vs as [|v vs IH]; intros acc Hall; simpl; [eauto|].
  destruct (Hall v) as [k ->]; [set_solver|]. apply IH. intros x Hx. apply Hall. set_solver.
Qed.

(** A worker that succeeds computed every key of its chunk. *)
Lemma group_chunk_ok_keys keyFn vs acc m :
  group_chunk keyFn vs acc = inr m → ∀ v, v ∈ vs → ∃ k, keyFn v = inr k.
Proof.
  revert acc. induction vs as [|v vs IH]; intros acc; simpl; [set_solver|].
  destruct (keyFn v) as [e|k] eqn:Hk; [done|].
  intros Hrun x [->|Hx]%elem_of_cons; eauto.
Qed.

(** ** Merging local groupings *)

Lemma merge_groups_spec keyFn m1 m2 :
  wf_grouping keyFn m1 → wf_grouping keyFn m2 →
  wf_grouping keyFn (merge_groups m1 m2) ∧
  members (merge_groups m1 m2) = members m1 ∪ members m2.
Proof.
  intros Hwf1 Hwf2. unfold merge_groups. split.
  - intros k S. rewrite lookup_union_with.
    destruct (m1 !! k) as [S1|] eqn:H1, (m2 !! k) as [S2|] eqn:H2; simpl.
    + intros [= <-]. destruct (Hwf1 k S1 H1) as [Hne1 Hk1].
      destruct (Hwf2 k S2 H2) as [_ Hk2]. split; [set_solver|].
      intros v [Hv|Hv]%elem_of_union; auto.
    + intros [= <-]. by apply Hwf1.
    + intros [= <-]. by apply Hwf2.
    + done.
  - apply set_eq. intros v. rewrite elem_of_union, !elem_of_members.
    setoid_rewrite lookup_union_with. split.
    + intros (k & S & HS & Hv).
      destruct (m1 !! k) as [S1|] eqn:H1, (m2 !! k) as [S2|] eqn:H2;
        simpl in HS; injection HS as <- || discriminate HS.
      * apply elem_of_union in Hv as [Hv|Hv]; eauto.
      * eauto.
      * eauto.
    + intros [(k & S & HS & Hv)|(k & S & HS & Hv)]; exists k; rewrite HS.
      * destruct (m2 !! k); simpl; eexists; (split; [done|set_solver]).
      * destruct (m1 !! k); simpl; eexists; (split; [done|set_solver]).
Qed.

(** ** Partition-then-merge equals the single-worker run *)

Lemma group_chunk_app keyFn l1 l2 acc :
  group_chunk keyFn (l1 ++ l2) acc =
    match group_chunk keyFn l1 acc with
    | inl e => inl e
    | inr m => group_chunk keyFn l2 m
    end.
Proof.
  revert acc. induction l1 as [|v l1 IH]; intros acc; simpl; [done|].
  destruct (keyFn v); [done|]. apply IH.
Qed.

Lemma collect_err_iff keyFn chunks e :
  collect (map (λ ch, group_chunk keyFn ch ∅) chunks) = inl e ↔
  group_chunk keyFn (concat chunks) ∅ = inl e.
Proof.
  induction chunks as [|ch chunks IH]; simpl; [split; discriminate|].
  rewrite group_chunk_app.
  destruct (group_chunk keyFn ch ∅) as [e'|m] eqn:Hch; simpl.
  { split; intros [= ->]; done. }
  destruct (collect _) as [e''|ms] eqn:Hc; split.
  - intros [= <-]. eapply group_chunk_err. by apply IH.
  - intros Hrun. apply (group_chunk_err _ _ _ ∅), IH in Hrun.
    injection Hrun as ->. done.
  - done.
  - intros Hrun. apply (group_chunk_err _ _ _ ∅) in Hrun.
    apply IH in Hrun. discriminate.
Qed.

Lemma foldl_merge_spec keyFn chunks ms acc :
  collect (map (λ ch, group_chunk keyFn ch ∅) chunks) = inr ms →
  wf_grouping keyFn acc →
  wf_grouping keyFn (foldl merge_groups acc ms) ∧
  members (foldl merge_groups acc ms) = members acc ∪ list_to_set (concat chunks).
Proof.
  revert ms acc. induction chunks as [|ch chunks IH]; intros ms acc; simpl.
  - intros [= <-] Hwf. split; [done|set_solver].
  - destruct (group_chunk keyFn ch ∅) as [e|m] eqn:Hch; [done|].
    destruct (collect _) as [e|ms'] eqn:Hc; [done|]. intros [= <-] Hwf. simpl.
    destruct (group_chunk_ok keyFn ch ∅ m Hch (wf_grouping_empty keyFn)) as [Hwfm Hm].
    destruct (merge_groups_spec keyFn acc m Hwf Hwfm) as [Hwf' Hmem'].
    destruct (IH ms' _ eq_refl Hwf') as [Hwf'' Hmem''].
    split; [done|]. rewrite Hmem'', Hmem', Hm, members_empty, list_to_set_app_L.
    set_solver.
Qed.

(** Any split of the values into worker chunks gives the single-worker result. *)
Lemma run_split_correct keyFn chunks :
  run_split keyFn chunks = group_chunk keyFn (concat chunks) ∅.
Proof.
  unfold run_split.
  destruct (group_chunk keyFn (concat chunks) ∅) as [e|m] eqn:Hrun.
  - by rewrite (proj2 (collect_err_iff keyFn chunks e) Hrun).
  - destruct (collect _) as [e|ms] eqn:Hc.
    + apply collect_err_iff in Hc. congruence.
    + f_equal. destruct (foldl_merge_spec keyFn chunks ms ∅ Hc (wf_grouping_empty _))
        as [Hwf Hmem].
      destruct (group_chunk_ok keyFn _ ∅ m Hrun (wf_grouping_empty _)) as [Hwfm Hm].
      apply (wf_grouping_unique keyFn); [done|done|].
      rewrite Hmem, Hm, members_empty. set_solver.
Qed.

(** ** The chunking of [cluster] covers the values in order *)

Lemma chunks_fuel_concat fuel size vs :
  0 < size → length vs ≤ fuel → concat (chunks_fuel fuel size vs) = vs.
Proof.
  intros Hsize. revert vs. induction fuel as [|f IH]; intros vs Hlen; simpl.
  - destruct vs; simpl in *; [done|lia].
  - destruct vs as [|x xs]; [done|]. simpl concat.
    rewrite IH; [apply take_drop|]. rewrite length_drop. simpl in *. lia.
Qed.

Lemma split_values_concat vs c : concat (split_values vs c) = vs.
Proof.
  unfold split_values. destruct vs as [|x xs]; [done|].
  apply chunks_fuel_concat; [|done]. unfold chunk_size.
  apply Nat.div_str_pos. simpl. lia.
Qed.

(** [cluster] with any concurrency computes what one worker computes
    over all values. *)
Lemma cluster_single_worker keyFn vs c :
  cluster keyFn vs c = group_chunk keyFn vs ∅.
Proof. unfold cluster. by rewrite run_split_correct, split_values_concat. Qed.

(** A successful clustering is a well-formed grouping of exactly the input. *)
Lemma cluster_ok keyFn vs c m :
  cluster keyFn vs c = inr m →
  wf_grouping keyFn m ∧ members m = list_to_set vs.
Proof.
  rewrite cluster_single_worker. intros Hrun.
  destruct (group_chunk_ok keyFn vs ∅ m Hrun (wf_grouping_empty _)) as [Hwf Hm].
  split; [done|]. rewrite Hm, members_empty. set_solver.
Qed.

(** Clustering succeeds exactly when every key computation succeeds. *)
Lemma cluster_total keyFn vs c :
  (∀ v, v ∈ vs → ∃ k, keyFn v = inr k) → ∃ m, cluster keyFn vs c = inr m.
Proof. rewrite cluster_single_worker. apply group_chunk_total. Qed.

(** The successful result depends on the set of values only. *)
Lemma cluster_set_invariant keyFn vs1 vs2 c1 c2 m :
  (∀ v, v ∈ vs1 ↔ v ∈ vs2) →
  cluster keyFn vs1 c1 = inr m → cluster keyFn vs2 c2 = inr m.
Proof.
  intros Hiff Hrun.
  pose proof Hrun as Hkeys. rewrite cluster_single_worker in Hkeys.
  pose proof (group_chunk_ok_keys _ _ _ _ Hkeys) as Hall.
  destruct (cluster_total keyFn vs2 c2) as [m2 Hrun2].
  { intros v Hv. apply Hall, Hiff, Hv. }
  rewrite Hrun2. f_equal.
  destruct (cluster_ok _ _ _ _ Hrun) as [Hwf1 Hm1].
  destruct (cluster_ok _ _ _ _ Hrun2) as [Hwf2 Hm2].
  apply (wf_grouping_unique keyFn); [done|done|].
  rewrite Hm1, Hm2. apply set_eq. intros v. rewrite !elem_of_list_to_set. done.
Qed.

(** ** Workers completing in any order *)

Lemma collect_ok_elem rs ms m :
  collect rs = inr ms → m ∈ ms → inr m ∈ rs.
Proof.
  revert ms. induction rs as [|[e|m'] rs IH]; intros ms; simpl.
  - intros [= <-]. set_solver.
  - done.
  - destruct (collect rs) as [e|ms'] eqn:Hc; [done|]. intros [= <-].
    intros [->|Hm]%elem_of_cons; [set_solver|]. apply elem_of_cons. right. by apply (IH ms').
Qed.

Lemma collect_ok_no_err rs ms e :
  collect rs = inr ms → inl e ∉ rs.
Proof.
  revert ms. induction rs as [|[e'|m'] rs IH]; intros ms; simpl.
  - set_solver.
  - done.
  - destruct (collect rs) as [e''|ms'] eqn:Hc; [done|]. intros _.
    rewrite elem_of_cons. intros [Heq|Hin]; [discriminate|]. by apply (IH ms').
Qed.

Lemma foldl_merge_members keyFn ms acc :
  wf_grouping keyFn acc → Forall (wf_grouping keyFn) ms →
  wf_grouping keyFn (foldl merge_groups acc ms) ∧
  ∀ v, v ∈ members (foldl merge_groups acc ms) ↔
       v ∈ members acc ∨ ∃ m, m ∈ ms ∧ v ∈ members m.
Proof.
  revert acc. induction ms as [|m ms IH]; intros acc Hwf Hall; simpl.
  - split; [done|]. set_solver.
  - apply Forall_cons in Hall as [Hwfm Hall].
    destruct (merge_groups_spec keyFn acc m Hwf Hwfm) as [Hwf' Hmem'].
    destruct (IH _ Hwf' Hall) as [Hwf'' Hmem'']. split; [done|].
    intros v. rewrite Hmem'', Hmem'. set_solver.
Qed.

Lemma collect_wf keyFn chunks ms :
  collect (map (λ ch, group_chunk keyFn ch ∅) chunks) = inr ms →
  Forall (wf_grouping keyFn) ms.
Proof.
  intros Hc. apply Forall_forall. intros m Hm.
  pose proof (collect_ok_elem _ _ _ Hc Hm) as Hin.
  apply list_elem_of_fmap in Hin as (ch & Hch & _). symmetry in Hch.
  exact (proj1 (group_chunk_ok keyFn ch ∅ m Hch (wf_grouping_empty _))).
Qed.

(** Every run of the workers that succeeds returns [cluster]'s mapping. *)
Lemma cluster_exec_ok keyFn vs c m :
  cluster_exec keyFn vs c (inr m) → cluster keyFn vs c = inr m.
Proof.
  inversion 1 as [ms ms' Hc Hperm|]; subst.
  pose proof (collect_wf _ _ _ Hc) as Hwfms.
  unfold cluster, run_split. rewrite Hc. f_equal.
  destruct (foldl_merge_members keyFn ms ∅ (wf_grouping_empty _) Hwfms) as [Hwf1 Hm1].
  assert (Hwfms' : Forall (wf_grouping keyFn) ms') by (by rewrite Hperm).
  destruct (foldl_merge_members keyFn ms' ∅ (wf_grouping_empty _) Hwfms') as [Hwf2 Hm2].
  apply (wf_grouping_unique keyFn); [done|done|].
  apply set_eq. intros v. rewrite Hm1, Hm2. by setoid_rewrite Hperm.
Qed.

(** A run of the workers that fails is a run of [cluster] that fails. *)
Lemma cluster_exec_err keyFn vs c e :
  cluster_exec keyFn vs c (inl e) → ∃ e', cluster keyFn vs c = inl e'.
Proof.
  inversion 1 as [|ch e' Hch Hrun]; subst.
  unfold cluster, run_split.
  destruct (collect _) as [e'|ms] eqn:Hc; [eauto|].
  exfalso. apply (collect_ok_no_err _ _ e Hc).
  apply list_elem_of_fmap. exists ch. split; [done|done].
Qed.

Lemma collect_err_elem rs e : collect rs = inl e → inl e ∈ rs.
Proof.
  induction rs as [|[e'|m'] rs IH]; simpl; [done| |].
  - intros [= ->]. set_solver.
  - destruct (collect rs) eqn:Hc; [|done]. intros [= ->]. set_solver.
Qed.

(** The deterministic [cluster] is one of the possible runs. *)
Lemma cluster_is_exec keyFn vs c : cluster_exec keyFn vs c (cluster keyFn vs c).
Proof.
  unfold cluster, run_split.
  destruct (collect _) as [e|ms] eqn:Hc.
  - apply collect_err_elem, list_elem_of_fmap in Hc as (ch & Hch & Hin).
    by apply (exec_aborted _ _ _ ch).
  - by apply (exec_merged _ _ _ ms ms).
Qed.

(** ** The caller's heap *)

Lemma merge_into_frame lr rs h l :
  l ≠ lr → (merge_into lr rs h).1 !! l = h !! l.
Proof.
  intros Hne. revert h. induction rs as [|[e|m] rs IH]; intros h; simpl; [done|done|].
  rewrite IH. by rewrite lookup_insert_ne.
Qed.

Lemma merge_into_spec lr rs h d :
  h !! lr = Some (PyDict d) →
  match collect rs with
  | inl e => (merge_into lr rs h).2 = Some e
  | inr ms => (merge_into lr rs h).2 = None ∧
              (merge_into lr rs h).1 !! lr = Some (PyDict (foldl merge_groups d ms))
  end.
Proof.
  revert h d. induction rs as [|[e|m] rs IH]; intros h d Hd; simpl; [done|done|].
  rewrite Hd. specialize (IH (<[lr := PyDict (merge_groups d m)]> h) (merge_groups d m)).
  rewrite lookup_insert_eq in IH. specialize (IH eq_refl).
  destruct (collect rs); simpl; done.
Qed.

(** ** Standardization *)

Lemma apply_std_map std vs threads : apply_std std vs threads = std <$> vs.
Proof.
  unfold apply_std. rewrite <- (split_values_concat vs threads) at 2.
  induction (split_values vs threads) as [|ch chs IH]; csimpl; [done|].
  by rewrite IH, fmap_app.
Qed.

(** * Properties of the clusterer *)

(** C1: for a key function that does not raise, [cluster] returns a
    mapping whose keys are exactly the keys observed on the input and
    whose cluster for key [k] is the set of input values with key [k];
    two input values share a cluster iff their keys are equal
    (duplicates collapse, since clusters are sets). *)
Theorem cluster_groups_by_key (keyFn : V → K) (vs : list V) (c : positive) :
  ∃ m, cluster (λ v, inr (keyFn v)) vs c = inr m ∧
    (∀ k, is_Some (m !! k) ↔ ∃ v, v ∈ vs ∧ keyFn v = k) ∧
    (∀ k S, m !! k = Some S → ∀ v, v ∈ S ↔ v ∈ vs ∧ keyFn v = k) ∧
    (∀ v1 v2, v1 ∈ vs → v2 ∈ vs →
       (∃ k S, m !! k = Some S ∧ v1 ∈ S ∧ v2 ∈ S) ↔ keyFn v1 = keyFn v2).
Proof.
  set (kf := λ v, inr (keyFn v) : E + K).
  destruct (cluster_total kf vs c) as [m Hrun]; [unfold kf; eauto|].
  destruct (cluster_ok _ _ _ _ Hrun) as [Hwf Hmem].
  assert (Hin : ∀ k v, v ∈ default ∅ (m !! k) ↔ v ∈ vs ∧ keyFn v = k).
  { intros k v. rewrite (wf_lookup_members kf) by done.
    rewrite Hmem, elem_of_list_to_set. unfold kf. split.
    - intros [Hv [= Hk]]. done.
    - intros [Hv <-]. done. }
  exists m. split; [done|]. split; [|split].
  - intros k. split.
    + intros [S HS]. destruct (Hwf k S HS) as [Hne _].
      destruct (set_choose_L S Hne) as [v Hv].
      exists v. apply Hin. by rewrite HS.
    + intros [v Hv]. apply Hin in Hv.
      destruct (m !! k) eqn:Hk; [eauto|set_solver].
  - intros k S HS v. rewrite <- Hin, HS. done.
  - intros v1 v2 Hv1 Hv2. split.
    + intros (k & S & HS & H1 & H2).
      assert (Hd1 : v1 ∈ default ∅ (m !! k)) by (by rewrite HS).
      assert (Hd2 : v2 ∈ default ∅ (m !! k)) by (by rewrite HS).
      apply Hin in Hd1 as [_ ->]. apply Hin in Hd2 as [_ ->]. done.
    + intros Heq. exists (keyFn v1).
      assert (Hd1 : v1 ∈ default ∅ (m !! keyFn v1)) by (by apply Hin).
      assert (Hd2 : v2 ∈ default ∅ (m !! keyFn v1)) by (by apply Hin).
      destruct (m !! keyFn v1) as [S|]; simpl in *; [eauto|set_solver].
Qed.

(** C2: a successful result is a partition of the distinct input
    values: the union of all clusters is the set of input values, the
    clusters are non-empty and distinct clusters are disjoint. *)
Theorem cluster_partition keyFn vs c m :
  cluster keyFn vs c = inr m →
  members m = list_to_set vs ∧
  (∀ k S, m !! k = Some S → S ≠ ∅) ∧
  (∀ k1 k2 S1 S2, m !! k1 = Some S1 → m !! k2 = Some S2 → k1 ≠ k2 → S1 ## S2).
Proof.
  intros Hrun. destruct (cluster_ok _ _ _ _ Hrun) as [Hwf Hmem].
  split; [done|split].
  - intros k S HS. exact (proj1 (Hwf k S HS)).
  - intros k1 k2 S1 S2 H1 H2 Hne v Hv1 Hv2.
    pose proof (proj2 (Hwf k1 S1 H1) v Hv1) as Hk1.
    pose proof (proj2 (Hwf k2 S2 H2) v Hv2) as Hk2.
    rewrite Hk1 in Hk2. injection Hk2 as ->. done.
Qed.

(** C3: the result does not depend on the number of workers, and more
    generally partition-then-merge over any split of the values into
    chunks gives the single-worker result. *)
Theorem cluster_concurrency_invariant keyFn vs (k : positive) :
  cluster keyFn vs k = cluster keyFn vs 1 ∧
  ∀ chunks, concat chunks = vs → run_split keyFn chunks = cluster keyFn vs 1.
Proof.
  split.
  - by rewrite !cluster_single_worker.
  - intros chunks <-. by rewrite run_split_correct, cluster_single_worker.
Qed.

(** C4: if the key function raises for an input value, [cluster] fails
    with a [KeyComputationError] (no mapping is returned) that names an
    input value whose key computation raised; when [v] is the only such
    value, the error names [v] and its cause. *)
Theorem cluster_key_error keyFn vs c v e :
  v ∈ vs → keyFn v = inl e →
  ∃ w e', cluster keyFn vs c = inl (KeyComputationError w e') ∧
    w ∈ vs ∧ keyFn w = inl e' ∧
    ((∀ u e'', u ∈ vs → keyFn u = inl e'' → u = v) → w = v ∧ e' = e).
Proof.
  intros Hv He. rewrite cluster_single_worker.
  destruct (group_chunk keyFn vs ∅) as [[w e']|m] eqn:Hrun.
  - destruct (group_chunk_err_value _ _ _ _ _ Hrun) as [Hw Hkw].
    exists w, e'. split; [done|]. split; [done|]. split; [done|].
    intros Huniq. pose proof (Huniq w e' Hw Hkw) as ->.
    rewrite He in Hkw. injection Hkw as ->. done.
  - destruct (group_chunk_ok_keys _ _ _ _ Hrun v Hv) as [k Hk]. congruence.
Qed.

(** C5: clustering an empty collection returns the empty mapping. *)
Theorem cluster_empty keyFn (c : positive) : cluster keyFn [] c = inr ∅.
Proof. reflexivity. Qed.

(** C6: whatever order the workers complete in, a run that returns a
    mapping returns the same mapping as any other run with the same
    arguments (and no other run fails). *)
Theorem cluster_deterministic keyFn vs c m1 r2 :
  cluster_exec keyFn vs c (inr m1) → cluster_exec keyFn vs c r2 → r2 = inr m1.
Proof.
  intros H1 H2. apply cluster_exec_ok in H1.
  destruct r2 as [e|m2].
  - apply cluster_exec_err in H2 as [e' He']. congruence.
  - apply cluster_exec_ok in H2. congruence.
Qed.

(** C7: clustering the flattened result of a clustering again returns
    the same mapping. *)
Theorem cluster_idempotent keyFn vs c c' m :
  cluster keyFn vs c = inr m → cluster keyFn (flatten m) c' = inr m.
Proof.
  intros Hrun. apply (cluster_set_invariant keyFn vs _ c); [|done].
  destruct (cluster_ok _ _ _ _ Hrun) as [_ Hmem]. intros v.
  rewrite <- (elem_of_list_to_set (C:=gset V) v vs), <- Hmem. unfold members.
  by rewrite elem_of_list_to_set.
Qed.

(** C8: calling [cluster] on the list stored at [lv] leaves every object
    that existed before the call unchanged, in particular the values
    list, whether the call succeeds or fails; the outcome is the one of
    [cluster]. *)
Theorem cluster_in_heap_frame keyFn c (h : heap) lv vs :
  h !! lv = Some (PyList vs) →
  ∃ h' r, cluster_in_heap keyFn c h lv = Some (h', r) ∧
    h' !! lv = Some (PyList vs) ∧
    (∀ l, l ∈ dom h → h' !! l = h !! l) ∧
    match r with
    | inl e => cluster keyFn vs c = inl e
    | inr lr => ∃ m, h' !! lr = Some (PyDict m) ∧ cluster keyFn vs c = inr m
    end.
Proof.
  intros Hlv. unfold cluster_in_heap. rewrite Hlv.
  set (lr := fresh (dom h)).
  set (rs := map (λ ch, group_chunk keyFn ch ∅) (split_values vs c)).
  set (h1 := <[lr := PyDict ∅]> h).
  assert (Hframe : ∀ l, l ∈ dom h → (merge_into lr rs h1).1 !! l = h !! l).
  { intros l Hl. assert (l ≠ lr) as Hne.
    { intros ->. apply (is_fresh (dom h)). exact Hl. }
    rewrite merge_into_frame by done. unfold h1. by rewrite lookup_insert_ne. }
  pose proof (merge_into_spec lr rs h1 ∅ (lookup_insert_eq _ _ _)) as Hspec.
  assert (Hcl : cluster keyFn vs c =
    match collect rs with inl e => inl e | inr ms => inr (foldl merge_groups ∅ ms) end)
    by reflexivity.
  destruct (merge_into lr rs h1) as [h' o] eqn:Hm. simpl in Hspec, Hframe.
  assert (Hlv' : h' !! lv = Some (PyList vs)).
  { rewrite Hframe; [done|]. apply elem_of_dom. eauto. }
  destruct (collect rs) as [e|ms] eqn:Hc.
  - subst o. exists h', (inl e). done.
  - destruct Hspec as [-> Hlr]. exists h', (inr lr). eauto 10.
Qed.

(** C9: the standardization [apply(values, threads)] maps every value to
    its standardized form, one output per input in input order, so the
    output has as many values as the input and does not depend on the
    number of threads. *)
Theorem apply_std_threads (std : V → V) vs (threads : positive) :
  apply_std std vs threads = std <$> vs ∧
  length (apply_std std vs threads) = length vs ∧
  apply_std std vs threads = apply_std std vs 1.
Proof.
  rewrite !apply_std_map. split; [done|]. split; [|done]. apply length_fmap.
Qed.

(** C10: standardizing and clustering inline on the stream gives the
    same clustering as standardizing the distinct values first and
    clustering them separately (hence the same number of clusters);
    one fails exactly when the other does. *)
Theorem pipelines_agree keyFn (std : V → V) column (c threads c' : positive) :
  (∀ m, stream_cluster keyFn std column c = inr m ↔
        separate_cluster keyFn std column threads c' = inr m) ∧
  ((∃ e, stream_cluster keyFn std column c = inl e) ↔
   (∃ e, separate_cluster keyFn std column threads c' = inl e)).
Proof.
  unfold stream_cluster, separate_cluster, distinct_values.
  rewrite apply_std_map.
  assert (Hset : ∀ v, v ∈ std <$> column ↔ v ∈ std <$> remove_dups column).
  { intros v. rewrite !list_elem_of_fmap. setoid_rewrite elem_of_remove_dups. done. }
  assert (Hiff : ∀ m, cluster keyFn (std <$> column) c = inr m ↔
                      cluster keyFn (std <$> remove_dups column) c' = inr m).
  { intros m. split; apply cluster_set_invariant; intros v; by rewrite Hset. }
  split; [done|].
  revert Hiff.
  destruct (cluster keyFn (std <$> column) c) as [e1|m1],
           (cluster keyFn (std <$> remove_dups column) c') as [e2|m2]; intros Hiff.
  - split; eauto.
  - specialize (Hiff m2). naive_solver.
  - specialize (Hiff m1). naive_solver.
  - split; intros [e He]; discriminate.
Qed.

(** * The notebook cells *)


Lemma size_list_to_set_remove_dups (l : list V) :
  length (remove_dups l) = size (list_to_set l : gset V).
Proof.
  rewrite <- (size_list_to_set (C:=gset V)) by apply NoDup_remove_dups. f_equal.
  apply set_eq. intros x. by rewrite !elem_of_list_to_set, elem_of_remove_dups.
Qed.



Lemma clustering_cell_eq keyFn (l : list V) :
  clustering_cell keyFn l =
    match cluster keyFn l 1 with
    | inl e => inl e
    | inr m => inr (replicate 4 (size m))
    end.
Proof.
  unfold clustering_cell, thread_counts. cbn [foldl].
  rewrite !cluster_single_worker. by destruct (group_chunk keyFn l ∅).
Qed.

(** X1: cell 6 prints the number of distinct street names for every
    thread count, and leaves the per-value standardization of the streets
    in [streets_std]. *)
Theorem standardization_cell_counts (std : V → V) (streets : list V) :
  standardization_cell std streets =
    (replicate 4 (length streets), Some (std <$> streets)).
Proof.
  unfold standardization_cell, thread_counts. cbn [foldl].
  rewrite !apply_std_map, length_fmap. reflexivity.
Qed.

(** X2: cell 7 fails exactly when clustering with one thread fails, and
    otherwise prints the same cluster count for all four thread counts. *)
Theorem clustering_cell_counts keyFn (streets_std : list V) :
  clustering_cell keyFn streets_std =
    match cluster keyFn streets_std 1 with
    | inl e => inl e
    | inr m => inr (replicate 4 (size m))
    end.
Proof. apply clustering_cell_eq. Qed.




(** X6: in a run of cells 5 to 8 that raises nothing, cell 5 prints the
    number of different street names, cell 6 prints that number four
    times, and cell 7 prints four times the cluster count that cell 8
    prints. *)
Theorem notebook_run_counts keyFn (std : V → V) column c n5 c6 c7 n8 :
  notebook_run keyFn std column c = inr (n5, c6, c7, n8) →
  n5 = size (list_to_set column : gset V) ∧
  c6 = replicate 4 n5 ∧
  c7 = replicate 4 n8.
Proof.
  unfold notebook_run, standardization_cell, thread_counts. cbn [foldl].
  rewrite !apply_std_map, length_fmap. cbn [fst snd default id].
  rewrite clustering_cell_eq.
  destruct (cluster keyFn (std <$> distinct_values column) 1) as [e|m1] eqn:H1; [done|].
  destruct (stream_cluster keyFn std column c) as [e|m2] eqn:H2; [done|].
  intros [= <- <- <- <-]. split; [apply size_list_to_set_remove_dups|].
  split; [reflexivity|].
  unfold stream_cluster in H2.
  assert (Heq : cluster keyFn (std <$> column) c = inr m1).
  { apply (cluster_set_invariant keyFn (std <$> distinct_values column) _ 1%positive c m1);
      [|done].
    intros v. unfold distinct_values. rewrite !list_elem_of_fmap.
    by setoid_rewrite elem_of_remove_dups. }
  rewrite Heq in H2. injection H2 as ->. reflexivity.
Qed.


End Clusterer.

(** * Concrete runs *)

(** A key function on numbers that raises on [7] and otherwise keys a
    value by its parity. *)
Definition parity_key (v : nat) : unit + nat :=
  if decide (v = 7) then inl () else inr (v mod 2).

Definition example_values : list nat := [1; 2; 3; 4; 1].

Definition example_clusters : gmap nat (gset nat) :=
  <[0 := {[2; 4]}]> (<[1 := {[1; 3]}]> ∅).

(** The local groupings of the two workers of [cluster parity_key example_values 2]. *)
Definition example_locals : list (gmap nat (gset nat)) :=
  match collect (map (λ ch, group_chunk parity_key ch ∅) (split_values example_values 2)) with
  | inl _ => []
  | inr ms => ms
  end.

Definition example_heap : gmap positive (pyobj (V:=nat) (K:=nat)) :=
  {[1%positive := PyList example_values]}.

Lemma cluster_partition_witness :
  cluster parity_key example_values 2 = inr example_clusters ∧
  members example_clusters = list_to_set example_values ∧
  (∀ k S, example_clusters !! k = Some S → S ≠ ∅) ∧
  (∀ k1 k2 S1 S2, example_clusters !! k1 = Some S1 → example_clusters !! k2 = Some S2 →
     k1 ≠ k2 → S1 ## S2).
Proof.
  split; [vm_compute; reflexivity|].
  apply (cluster_partition parity_key example_values 2 example_clusters).
  vm_compute. reflexivity.
Defined.

Lemma cluster_key_error_witness :
  7 ∈ [1; 7; 3] ∧ parity_key 7 = inl () ∧
  ∃ w e', cluster parity_key [1; 7; 3] 3 = inl (KeyComputationError w e') ∧
    w ∈ [1; 7; 3] ∧ parity_key w = inl e' ∧
    ((∀ u e'', u ∈ [1; 7; 3] → parity_key u = inl e'' → u = 7) → w = 7 ∧ e' = ()).
Proof.
  split; [set_solver|]. split; [reflexivity|].
  apply (cluster_key_error parity_key [1; 7; 3] 3 7 ()); [set_solver|reflexivity].
Defined.

Lemma cluster_deterministic_witness :
  cluster_exec parity_key example_values 2
    (inr (foldl merge_groups ∅ (reverse example_locals))) ∧
  cluster_exec parity_key example_values 2
    (inr (foldl merge_groups ∅ example_locals)) ∧
  (inr (foldl merge_groups ∅ example_locals) : @ClusterError nat unit + gmap nat (gset nat)) =
    inr (foldl merge_groups ∅ (reverse example_locals)).
Proof.
  assert (H1 : cluster_exec parity_key example_values 2
                 (inr (foldl merge_groups ∅ (reverse example_locals)))).
  { apply (exec_merged _ _ _ example_locals); [vm_compute; reflexivity|].
    apply reverse_Permutation. }
  assert (H2 : cluster_exec parity_key example_values 2
                 (inr (foldl merge_groups ∅ example_locals))).
  { apply (exec_merged _ _ _ example_locals); [vm_compute; reflexivity|reflexivity]. }
  split; [exact H1|]. split; [exact H2|].
  exact (cluster_deterministic parity_key example_values 2 _ _ H1 H2).
Defined.

Lemma cluster_idempotent_witness :
  cluster parity_key example_values 2 = inr example_clusters ∧
  cluster parity_key (flatten example_clusters) 3 = inr example_clusters.
Proof.
  split; [vm_compute; reflexivity|].
  apply (cluster_idempotent parity_key example_values 2 3 example_clusters).
  vm_compute. reflexivity.
Defined.

Lemma cluster_in_heap_frame_witness :
  example_heap !! 1%positive = Some (PyList example_values) ∧
  ∃ h' r, cluster_in_heap parity_key 2 example_heap 1 = Some (h', r) ∧
    h' !! 1%positive = Some (PyList example_values) ∧
    (∀ l, l ∈ dom example_heap → h' !! l = example_heap !! l) ∧
    match r with
    | inl e => cluster parity_key example_values 2 = inl e
    | inr lr => ∃ m, h' !! lr = Some (PyDict m) ∧ cluster parity_key example_values 2 = inr m
    end.
Proof.
  split; [reflexivity|].
  apply (cluster_in_heap_frame parity_key 2 example_heap 1 example_values).
  reflexivity.
Defined.


(** A street column with a repeated value and a standardization that
    merges [4] into [2]. *)
Definition example_column : list nat := [1; 4; 2; 3; 1].

Definition example_std (v : nat) : nat := if decide (v = 4) then 2 else v.



Lemma notebook_run_counts_witness :
  notebook_run parity_key example_std example_column 1 = inr (4, [4; 4; 4; 4], [2; 2; 2; 2], 2) ∧
  4 = size (list_to_set example_column : gset nat) ∧
  [4; 4; 4; 4] = replicate 4 4 ∧
  [2; 2; 2; 2] = replicate 4 2.
Proof.
  split; [vm_compute; reflexivity|].
  apply (notebook_run_counts parity_key example_std example_column 1).
  vm_compute. reflexivity.
Defined.
